(** * MongoDB recorders of [eventsourcing/mongodb.py]

    A shallow embedding of [MongoDBAggregateRecorder],
    [MongoDBApplicationRecorder] and [MongoDBProcessRecorder], together with
    the part of the pymongo collection and cursor interface they call. *)

From Stdlib Require Import ZArith String List Bool Lia Sorted Arith Permutation.
Import ListNotations.
Open Scope Z_scope.

(** ** Python outcomes: a call returns a value or raises *)

Inductive exn : Type :=
| DuplicateKeyError   (* pymongo.errors.DuplicateKeyError *)
| ValueError          (* cursor.skip with a negative argument *)
| AttributeError      (* a method looked up on an object that lacks it *)
| OverflowError.      (* the BSON encoder, on an int outside 64 bits *)

Inductive outcome (A : Type) : Type :=
| Returned (a : A)
| Raised (e : exn).
Arguments Returned {A} a.
Arguments Raised {A} e.

Definition bind {A B : Type} (m : outcome A) (k : A -> outcome B) : outcome B :=
  match m with
  | Returned a => k a
  | Raised e => Raised e
  end.

Definition omap {A B : Type} (f : A -> B) (m : outcome A) : outcome B :=
  bind m (fun a => Returned (f a)).

Notation "x <- m ;; k" := (bind m (fun x => k))
  (at level 100, m at next level, right associativity).

(** ** Data model *)

(** A [uuid.UUID], taken as its 128-bit integer value. *)
Definition UUID : Type := N.

Record StoredEvent : Type := mkStoredEvent {
  originator_id : UUID;
  originator_version : Z;
  topic : string;
  state : list Byte.byte
}.

Record Notification : Type := mkNotification {
  id : Z;
  n_originator_id : UUID;
  n_originator_version : Z;
  n_topic : string;
  n_state : list Byte.byte
}.

(** A document of the collection: the fields of [asdict(event)] and the
    [_id] key that [insert_one] adds. *)
Record document : Type := mkDocument {
  _id : nat;
  d_originator_id : UUID;
  d_originator_version : Z;
  d_topic : string;
  d_state : list Byte.byte
}.

(** A collection in natural (insertion) order. *)
Definition collection : Type := list document.

(** ** The pymongo interface used by the recorders *)

Module Mongo.

(** [{"$gt": n}] and [{"$lte": n}]. *)
Inductive condition : Type :=
| Gt (n : Z)
| Lte (n : Z).

(** The query dict: the three keys the recorders ever set. *)
Record query : Type := mkQuery {
  q_originator_id : option UUID;
  q_originator_version : option condition;
  q_and : option (list condition)
}.

Definition empty_query : query := mkQuery None None None.

Definition holds (c : condition) (v : Z) : bool :=
  match c with
  | Gt n => n <? v
  | Lte n => v <=? n
  end.

Definition opt_holds {A : Type} (p : A -> bool) (o : option A) : bool :=
  match o with
  | Some a => p a
  | None => true
  end.

Definition matches (q : query) (d : document) : bool :=
  opt_holds (fun u => N.eqb (d_originator_id d) u) (q_originator_id q)
  && opt_holds (fun c => holds c (d_originator_version d)) (q_originator_version q)
  && opt_holds (forallb (fun c => holds c (d_originator_version d))) (q_and q).

(** [collection.find(query)]: the matching documents in natural order. *)
Definition find (q : query) (c : collection) : list document :=
  filter (matches q) c.

(** [collection.find_one()]: the first document in natural order, or
    [None]. *)
Definition find_one (c : collection) : option document := hd_error c.

(** [collection.count()]. *)
Definition count (c : collection) : Z := Z.of_nat (length c).

(** The unique index on [(originator_id, originator_version)]. *)
Definition same_key (u : UUID) (v : Z) (d : document) : bool :=
  N.eqb (d_originator_id d) u && Z.eqb (d_originator_version d) v.

Definition has_key (u : UUID) (v : Z) (c : collection) : bool :=
  existsb (same_key u v) c.

(** [asdict(event)] once [insert_one] has given it an [_id]. *)
Definition with_id (n : nat) (e : StoredEvent) : document :=
  mkDocument n (originator_id e) (originator_version e) (topic e) (state e).

(** [collection.insert_one(asdict(event))] as the collection answers it,
    under the unique index, for a document the driver could encode (see
    [insert_one_encoded] below). *)
Definition insert_one (c : collection) (e : StoredEvent) : outcome collection :=
  if has_key (originator_id e) (originator_version e) c
  then Raised DuplicateKeyError
  else Returned (c ++ [with_id (length c) e]).

(** The integers the BSON encoder accepts: those of 64 bits. *)
Definition encodable (v : Z) : bool := (- 2 ^ 63 <=? v) && (v <? 2 ^ 63).

(** [collection.insert_one(asdict(event))] with the driver in front of the
    collection: the document is encoded before it is sent, and an
    [originator_version] outside 64 bits raises [OverflowError]. *)
Definition insert_one_encoded (c : collection) (e : StoredEvent)
  : outcome collection :=
  if encodable (originator_version e) then insert_one c e
  else Raised OverflowError.

(** [cursor.sort([("originator_version", direction)])], as a stable
    insertion sort. *)
Definition before (descending : bool) (a b : document) : bool :=
  if descending
  then d_originator_version b <=? d_originator_version a
  else d_originator_version a <=? d_originator_version b.

Fixpoint sort_insert (descending : bool) (d : document) (l : list document)
  : list document :=
  match l with
  | [] => [d]
  | x :: l' =>
      if before descending d x then d :: l
      else x :: sort_insert descending d l'
  end.

Definition sort (descending : bool) (l : list document) : list document :=
  fold_right (sort_insert descending) [] l.

(** [cursor.skip(n)]: a negative [n] raises [ValueError]. *)
Definition skip (n : Z) (l : list document) : outcome (list document) :=
  if n <? 0 then Raised ValueError else Returned (skipn (Z.to_nat n) l).

(** [cursor.limit(n)]: [0] means no limit, a negative [n] limits to
    [abs n]. *)
Definition limit (n : Z) (l : list document) : list document :=
  if n =? 0 then l else firstn (Z.abs_nat n) l.

End Mongo.

(** ** MongoDBAggregateRecorder *)

(** Truth value of an [Optional[int]]: [None] and [0] are false. *)
Definition truthy (o : option Z) : bool :=
  match o with
  | Some n => negb (n =? 0)
  | None => false
  end.

(** The event appended on a duplicate key: [event_dict["originator_version"] += 1]. *)
Definition bump (e : StoredEvent) : StoredEvent :=
  mkStoredEvent (originator_id e) (originator_version e + 1) (topic e) (state e).

(** What [insert_events] leaves behind: the collection, the list object the
    caller passed in (the loop appends to it), and the returned ids. *)
Record inserted : Type := mkInserted {
  i_collection : collection;
  i_stored_events : list StoredEvent;
  i_notification_ids : list Z
}.

(** The [for event in stored_events] loop, on events whose versions the
    driver can encode ([insert_loop_encoded] below has the encoder).  Python
    iterates the list by index, so events appended by the handler are
    visited too; the loop is therefore not structural in the list, and runs
    on [fuel]. *)
Fixpoint insert_loop (fuel : nat) (coll : collection)
  (stored_events : list StoredEvent) (i : nat) (notification_ids : list Z)
  : option (outcome inserted) :=
  match fuel with
  | O => None
  | S fuel' =>
      match nth_error stored_events i with
      | None => Some (Returned (mkInserted coll stored_events notification_ids))
      | Some event =>
          match Mongo.insert_one coll event with
          | Returned coll' =>
              insert_loop fuel' coll' stored_events (S i)
                (notification_ids ++ [Mongo.count coll'])
          | Raised DuplicateKeyError =>
              insert_loop fuel' coll (stored_events ++ [bump event]) (S i)
                (notification_ids ++ [Mongo.count coll])
          | Raised e => Some (Raised e)
          end
      end
  end.

(** A number of iterations that always suffices
    ([insert_events_returns]): every version in sight is below
    [version_bound], and each pending event can be bumped at most up to
    it. *)
Definition version_bound (coll : collection) (stored_events : list StoredEvent) : Z :=
  Z.max (fold_right (fun d m => Z.max (d_originator_version d + 1) m) 0 coll)
        (fold_right (fun e m => Z.max (originator_version e) m) 0 stored_events)
  + Z.of_nat (length stored_events).

Definition potential (bound : Z) (pending : list StoredEvent) : nat :=
  fold_right (fun e m => (Z.to_nat (bound + 1 - originator_version e) + m)%nat)
    O pending.

Definition insert_fuel (coll : collection) (stored_events : list StoredEvent) : nat :=
  S (potential (version_bound coll stored_events) stored_events).

Definition insert_events (coll : collection) (stored_events : list StoredEvent)
  : option (outcome inserted) :=
  insert_loop (insert_fuel coll stored_events) coll stored_events O [].

(** [insert_events] with the driver's encoder in front of the collection:
    how the call ends, returning the ids or raising, with the collection
    and the caller's list as the call leaves them.  The handler catches
    [DuplicateKeyError] only; any other exception ends the call where it is
    raised, and what was inserted or appended before stays. *)
Fixpoint insert_loop_encoded (fuel : nat) (coll : collection)
  (stored_events : list StoredEvent) (i : nat) (notification_ids : list Z)
  : option (outcome (list Z) * collection * list StoredEvent) :=
  match fuel with
  | O => None
  | S fuel' =>
      match nth_error stored_events i with
      | None => Some (Returned notification_ids, coll, stored_events)
      | Some event =>
          match Mongo.insert_one_encoded coll event with
          | Returned coll' =>
              insert_loop_encoded fuel' coll' stored_events (S i)
                (notification_ids ++ [Mongo.count coll'])
          | Raised DuplicateKeyError =>
              insert_loop_encoded fuel' coll (stored_events ++ [bump event])
                (S i) (notification_ids ++ [Mongo.count coll])
          | Raised e => Some (Raised e, coll, stored_events)
          end
      end
  end.

Definition insert_events_encoded (coll : collection)
  (stored_events : list StoredEvent)
  : option (outcome (list Z) * collection * list StoredEvent) :=
  insert_loop_encoded (insert_fuel coll stored_events) coll stored_events O [].

(** The integer of an [Optional[int]] that was found true. *)
Definition unwrap (o : option Z) : Z :=
  match o with Some n => n | None => 0 end.

(** [apply_params] updates the query dict in place; here it returns the
    updated dict. *)
Definition apply_params (q : Mongo.query) (gt lte : option Z) : Mongo.query :=
  let q1 :=
    if truthy gt
    then Mongo.mkQuery (Mongo.q_originator_id q) (Some (Mongo.Gt (unwrap gt)))
           (Mongo.q_and q)
    else q in
  match truthy lte, Mongo.q_originator_version q1 with
  | true, Some old_condition =>
      Mongo.mkQuery (Mongo.q_originator_id q1) None
        (Some [old_condition; Mongo.Lte (unwrap lte)])
  | true, None =>
      Mongo.mkQuery (Mongo.q_originator_id q1) (Some (Mongo.Lte (unwrap lte)))
        (Mongo.q_and q1)
  | false, _ => q1
  end.

(** The [StoredEvent] built from the keys of a document that are fields of
    [StoredEvent]: [_id] is dropped. *)
Definition to_stored_event (d : document) : StoredEvent :=
  mkStoredEvent (d_originator_id d) (d_originator_version d) (d_topic d) (d_state d).

Definition select_events (coll : collection) (originator_id : UUID)
  (gt lte : option Z) (desc : bool) (limit : option Z)
  : outcome (list StoredEvent) :=
  let query := Mongo.mkQuery (Some originator_id) None None in
  let query := apply_params query gt lte in
  let cursor := Mongo.find query coll in
  let cursor := Mongo.sort desc cursor in
  let cursor := if truthy limit then Mongo.limit (unwrap limit) cursor else cursor in
  Returned (map to_stored_event cursor).

(** ** MongoDBApplicationRecorder *)

(** [enumerate(cursor, start)]. *)
Fixpoint enumerate {A : Type} (l : list A) (start : Z) : list (Z * A) :=
  match l with
  | [] => []
  | x :: l' => (start, x) :: enumerate l' (start + 1)
  end.

Definition is_empty {A : Type} (l : list A) : bool :=
  match l with [] => true | _ => false end.

Definition topic_in (topics : list string) (t : string) : bool :=
  existsb (String.eqb t) topics.

(** [Notification(id=notification_id, originator_id=obj.get(...), ...)]. *)
Definition notification_of (notification_id : Z) (obj : document) : Notification :=
  mkNotification notification_id (d_originator_id obj)
    (d_originator_version obj) (d_topic obj) (d_state obj).

(** The loop body of [select_notifications], with its [break] and
    [continue]. *)
Fixpoint notification_loop (stop : option Z) (topics : list string)
  (items : list (Z * document)) : list Notification :=
  match items with
  | [] => []
  | (notification_id, obj) :: rest =>
      if match stop with
         | Some s => s - 1 <? notification_id
         | None => false
         end
      then []
      else if negb (is_empty topics) && negb (topic_in topics (d_topic obj))
      then notification_loop stop topics rest
      else notification_of notification_id obj
           :: notification_loop stop topics rest
  end.

Definition select_notifications (coll : collection) (start limit : Z)
  (stop : option Z) (topics : list string) : outcome (list Notification) :=
  cursor <- Mongo.skip (start - 1) (Mongo.find Mongo.empty_query coll) ;;
  let cursor := Mongo.limit limit cursor in
  Returned (notification_loop stop topics (enumerate cursor start)).

Definition max_notification_id (coll : collection) : Z := Mongo.count coll.

(** ** MongoDBProcessRecorder *)

(** The Python values that [max_tracking_id] handles. *)
Inductive pyobj : Type :=
| PyNone
| PyDict (d : document)
| PyCursor (l : list document).

Definition of_option (o : option document) : pyobj :=
  match o with Some d => PyDict d | None => PyNone end.

(** [obj.sort([("notification_id", DESCENDING)])]: only a cursor has the
    method.  The documents carry no [notification_id], so the order of a
    cursor is left as it is. *)
Definition call_sort (o : pyobj) : outcome pyobj :=
  match o with
  | PyCursor l => Returned (PyCursor l)
  | _ => Raised AttributeError
  end.

Definition call_limit (n : Z) (o : pyobj) : outcome pyobj :=
  match o with
  | PyCursor l => Returned (PyCursor (Mongo.limit n l))
  | _ => Raised AttributeError
  end.

(** [max_id_record.get("notification_id", 0)] on a dict; a cursor has no
    [get]. *)
Definition call_get_notification_id (o : pyobj) : outcome Z :=
  match o with
  | PyDict _ => Returned 0
  | _ => Raised AttributeError
  end.

Definition py_truthy (o : pyobj) : bool :=
  match o with
  | PyNone => false
  | PyDict _ => true
  | PyCursor _ => true
  end.

Definition max_tracking_id (coll : collection) (application_name : string)
  : outcome Z :=
  sorted <- call_sort (of_option (Mongo.find_one coll)) ;;
  max_id_record <- call_limit 1 sorted ;;
  if py_truthy max_id_record
  then call_get_notification_id max_id_record
  else Returned 0.

(** ** Predicates used in the statements *)

(** [within C coll pending]: the versions stored and pending leave room
    below [C] for one bump per pending event. *)
Definition within (C : Z) (coll : collection) (pending : list StoredEvent) : Prop :=
  Forall (fun d => d_originator_version d + 1 + Z.of_nat (length pending) <= C) coll /\
  Forall (fun e => originator_version e + Z.of_nat (length pending) <= C) pending.


(** An event under a later version, as [k] successive bumps leave it. *)
Definition renumber (e : StoredEvent) (k : Z) : StoredEvent :=
  mkStoredEvent (originator_id e) (originator_version e + k) (topic e) (state e).





(** [first, first + 1, ...], [n] ids. *)
Fixpoint consecutive (first : Z) (n : nat) : list Z :=
  match n with
  | O => []
  | S n' => first :: consecutive (first + 1) n'
  end.


(** Order of versions that [desc] asks for. *)
Definition version_order (desc : bool) (a b : Z) : Prop :=
  if desc then b <= a else a <= b.

Definition doc_order (desc : bool) (a b : document) : Prop :=
  version_order desc (d_originator_version a) (d_originator_version b).

(** The bounds a call of [select_events] puts on a version: a bound that is
    [None] or [0] does not count. *)
Definition in_bounds (gt lte : option Z) (v : Z) : Prop :=
  (truthy gt = true -> unwrap gt < v) /\ (truthy lte = true -> v <= unwrap lte).

(** ** The scenario of the specification: stream [A], versions 0, 1, 2 *)

Definition stream_A : UUID := 1%N.

Definition event (u : UUID) (v : Z) (t : string) : StoredEvent :=
  mkStoredEvent u v t [].

Definition batch_A : list StoredEvent :=
  [event stream_A 0 "Created"; event stream_A 1 "Updated";
   event stream_A 2 "Updated"].

Definition store_A : collection :=
  [mkDocument 0 stream_A 0 "Created" []; mkDocument 1 stream_A 1 "Updated" [];
   mkDocument 2 stream_A 2 "Updated" []].

(** The notifications of the scenario's store. *)
Definition notification_1 : Notification :=
  mkNotification 1 stream_A 0 "Created" [].
Definition notification_2 : Notification :=
  mkNotification 2 stream_A 1 "Updated" [].
Definition notification_3 : Notification :=
  mkNotification 3 stream_A 2 "Updated" [].

(** ** Further predicates *)

(** The key of the unique index, and a collection the index holds on. *)
Definition key (d : document) : UUID * Z :=
  (d_originator_id d, d_originator_version d).

Definition unique_keys (c : collection) : Prop := NoDup (map key c).

(** The documents of a cursor as notifications numbered from [start]. *)
Definition notifications_from (start : Z) (docs : list document)
  : list Notification :=
  map (fun p => notification_of (fst p) (snd p)) (enumerate docs start).

(** The strict order of versions that [desc] asks for. *)
Definition strict_order (desc : bool) (a b : Z) : Prop :=
  if desc then b < a else a < b.

(** ** The recorders over a database *)















(** ** Predicates for the encoded insert and the truncated read *)

(** The versions stored and those of the batch leave room within 64 bits
    for one bump per event of the batch. *)
Definition room (coll : collection) (batch : list StoredEvent) : Prop :=
  within (2 ^ 63 - 1) coll batch /\
  Forall (fun e => - 2 ^ 63 <= originator_version e) batch.


(** [in_bounds] as the query tests it, and the documents of a stream that
    pass. *)
Definition in_boundsb (gt lte : option Z) (v : Z) : bool :=
  (negb (truthy gt) || (unwrap gt <? v))
  && (negb (truthy lte) || (v <=? unwrap lte)).

Definition stream_documents (coll : collection) (u : UUID)
  (gt lte : option Z) : list document :=
  filter (fun d => N.eqb (d_originator_id d) u
                   && in_boundsb gt lte (d_originator_version d)) coll.

(** ** A store at the end of the 64-bit range *)



(** * Properties *)

(** ** Lists *)

Section ListFacts.
Context {A : Type}.

Lemma nth_error_skipn_cons (l : list A) (i : nat) (x : A) :
  nth_error l i = Some x -> skipn i l = x :: skipn (S i) l.
Proof.
  revert i; induction l as [|y l IH]; intros [|i] H; simpl in *;
    try discriminate.
  - now inversion H.
  - now apply IH.
Qed.

Lemma skipn_snoc (l : list A) (i : nat) (x : A) :
  (i <= length l)%nat -> skipn i (l ++ [x]) = skipn i l ++ [x].
Proof.
  intros H. rewrite skipn_app.
  replace (i - length l)%nat with O by lia. reflexivity.
Qed.

Lemma nth_error_some_lt (l : list A) (i : nat) (x : A) :
  nth_error l i = Some x -> (i < length l)%nat.
Proof. intros H. apply nth_error_Some. congruence. Qed.

End ListFacts.

(** ** The unique index *)

Lemma has_key_true (u : UUID) (v : Z) (c : collection) :
  Mongo.has_key u v c = true <->
  exists d, In d c /\ d_originator_id d = u /\ d_originator_version d = v.
Proof.
  unfold Mongo.has_key, Mongo.same_key. rewrite existsb_exists. split.
  - intros [d [Hin Hk]]. apply andb_true_iff in Hk as [Hu Hv].
    apply N.eqb_eq in Hu. apply Z.eqb_eq in Hv. now exists d.
  - intros [d [Hin [Hu Hv]]]. exists d. split; [assumption|].
    apply andb_true_iff. split; [now apply N.eqb_eq | now apply Z.eqb_eq].
Qed.

Lemma has_key_app (u : UUID) (v : Z) (c1 c2 : collection) :
  Mongo.has_key u v (c1 ++ c2) = Mongo.has_key u v c1 || Mongo.has_key u v c2.
Proof. unfold Mongo.has_key. apply existsb_app. Qed.

Lemma insert_one_cases (c : collection) (e : StoredEvent) :
  (Mongo.has_key (originator_id e) (originator_version e) c = true /\
   Mongo.insert_one c e = Raised DuplicateKeyError) \/
  (Mongo.has_key (originator_id e) (originator_version e) c = false /\
   Mongo.insert_one c e = Returned (c ++ [Mongo.with_id (length c) e])).
Proof.
  unfold Mongo.insert_one.
  destruct (Mongo.has_key (originator_id e) (originator_version e) c); auto.
Qed.

Lemma count_snoc (c : collection) (d : document) :
  Mongo.count (c ++ [d]) = Mongo.count c + 1.
Proof. unfold Mongo.count. rewrite length_app. simpl. lia. Qed.

(** ** The loop of [insert_events] *)

Section InsertLoop.

(** An invariant of the loop is a property of the collection, the
    caller's list, the index and the ids that both branches keep. *)
Variable P : collection -> list StoredEvent -> nat -> list Z -> Prop.

Hypothesis keep_inserted : forall coll lst i ids e,
  P coll lst i ids ->
  nth_error lst i = Some e ->
  Mongo.has_key (originator_id e) (originator_version e) coll = false ->
  P (coll ++ [Mongo.with_id (length coll) e]) lst (S i)
    (ids ++ [Mongo.count coll + 1]).

Hypothesis keep_duplicate : forall coll lst i ids e,
  P coll lst i ids ->
  nth_error lst i = Some e ->
  Mongo.has_key (originator_id e) (originator_version e) coll = true ->
  P coll (lst ++ [bump e]) (S i) (ids ++ [Mongo.count coll]).


End InsertLoop.

(** ** Termination of the loop *)


Lemma potential_cons (C : Z) (e : StoredEvent) (l : list StoredEvent) :
  potential C (e :: l) =
  (Z.to_nat (C + 1 - originator_version e) + potential C l)%nat.
Proof. reflexivity. Qed.

Lemma potential_snoc (C : Z) (l : list StoredEvent) (e : StoredEvent) :
  potential C (l ++ [e]) =
  (potential C l + Z.to_nat (C + 1 - originator_version e))%nat.
Proof.
  unfold potential. induction l as [|x l IH]; simpl.
  - lia.
  - rewrite IH. lia.
Qed.

Lemma within_inserted C coll e tl n :
  within C coll (e :: tl) -> within C (coll ++ [Mongo.with_id n e]) tl.
Proof.
  intros [Hc Hp]. inversion Hp as [|? ? He Htl]; subst. split.
  - apply Forall_app. split.
    + eapply Forall_impl; [|exact Hc]. intros d Hd. simpl in Hd. lia.
    + constructor; [|constructor]. simpl in *. lia.
  - eapply Forall_impl; [|exact Htl]. intros x Hx. simpl in Hx. lia.
Qed.

Lemma within_duplicate C coll e tl :
  within C coll (e :: tl) ->
  Mongo.has_key (originator_id e) (originator_version e) coll = true ->
  within C coll (tl ++ [bump e]).
Proof.
  intros [Hc Hp] Hk. inversion Hp as [|? ? He Htl]; subst.
  apply has_key_true in Hk as [d [Hin [_ Hv]]].
  assert (Hlen : length (tl ++ [bump e]) = length (e :: tl))
    by (rewrite length_app; simpl; lia).
  split; rewrite Hlen; [assumption|].
  apply Forall_app. split; [assumption|].
  constructor; [|constructor].
  rewrite Forall_forall in Hc. specialize (Hc d Hin). simpl in *. lia.
Qed.


Lemma fold_max_doc_bound (coll : collection) :
  Forall (fun d => d_originator_version d + 1 <=
                   fold_right (fun d m => Z.max (d_originator_version d + 1) m) 0 coll)
         coll.
Proof.
  induction coll as [|d coll IH]; constructor; simpl.
  - lia.
  - eapply Forall_impl; [|exact IH]. simpl. intros x Hx. lia.
Qed.

Lemma fold_max_event_bound (l : list StoredEvent) :
  Forall (fun e => originator_version e <=
                   fold_right (fun e m => Z.max (originator_version e) m) 0 l)
         l.
Proof.
  induction l as [|e l IH]; constructor; simpl.
  - lia.
  - eapply Forall_impl; [|exact IH]. simpl. intros x Hx. lia.
Qed.

Lemma within_version_bound (coll : collection) (l : list StoredEvent) :
  within (version_bound coll l) coll l.
Proof.
  unfold version_bound. split.
  - eapply Forall_impl; [|apply fold_max_doc_bound]. simpl. intros d Hd. lia.
  - eapply Forall_impl; [|apply fold_max_event_bound]. simpl. intros e He. lia.
Qed.


(** More fuel never changes a result. *)
Lemma insert_loop_more_fuel (fuel : nat) :
  forall fuel' coll lst i ids r,
    insert_loop fuel coll lst i ids = Some r ->
    (fuel <= fuel')%nat ->
    insert_loop fuel' coll lst i ids = Some r.
Proof.
  induction fuel as [|fuel IH]; intros fuel' coll lst i ids r Hrun Hle;
    simpl in Hrun; [discriminate|].
  destruct fuel' as [|fuel']; [lia|]. simpl.
  destruct (nth_error lst i) as [e|]; [|assumption].
  destruct (Mongo.insert_one coll e) as [coll'|[| | |]]; try assumption;
    apply IH; try assumption; lia.
Qed.






Lemma to_stored_event_with_id (n : nat) (e : StoredEvent) :
  to_stored_event (Mongo.with_id n e) = e.
Proof. destruct e; reflexivity. Qed.

Lemma bump_renumber (e : StoredEvent) (k : Z) :
  bump (renumber e k) = renumber e (k + 1).
Proof. unfold bump, renumber; simpl. f_equal. lia. Qed.

(** An event of the batch is found at its index in the caller's list
    however much the list has grown. *)
Lemma visited_is_original (evs0 extra : list StoredEvent) (j : nat)
  (e x : StoredEvent) :
  nth_error evs0 j = Some e ->
  nth_error (evs0 ++ extra) j = Some x ->
  x = e.
Proof.
  intros He Hx. rewrite nth_error_app1 in Hx.
  - congruence.
  - eapply nth_error_some_lt; eassumption.
Qed.

Lemma stored_key_stays (coll0 added : collection) (e : StoredEvent) :
  Mongo.has_key (originator_id e) (originator_version e) coll0 = true ->
  Mongo.has_key (originator_id e) (originator_version e) (coll0 ++ added) = true.
Proof. intros H. rewrite has_key_app, H. reflexivity. Qed.

(** ** Claims on [insert_events] *)

(** The scenario's store is what appending the scenario's batch to an
    empty collection leaves. *)
Lemma store_A_appended :
  insert_events [] batch_A = Some (Returned (mkInserted store_A batch_A [1; 2; 3])).
Proof. vm_compute. reflexivity. Qed.



(** ** Consecutive ids *)



Lemma consecutive_in (a : Z) (n : nat) (x : Z) :
  In x (consecutive a n) <-> a <= x < a + Z.of_nat n.
Proof.
  revert a; induction n as [|n IH]; intros a; simpl.
  - lia.
  - rewrite IH. lia.
Qed.


Lemma consecutive_ascending (a : Z) (n : nat) :
  StronglySorted Z.lt (consecutive a n).
Proof.
  revert a; induction n as [|n IH]; intros a; simpl; constructor.
  - apply IH.
  - apply Forall_forall. intros x Hx. apply consecutive_in in Hx. lia.
Qed.







(** ** The highest id *)






(** ** Sorting and truncating a cursor *)

Lemma version_order_trans (desc : bool) (a b c : Z) :
  version_order desc a b -> version_order desc b c -> version_order desc a c.
Proof. unfold version_order. destruct desc; lia. Qed.

Lemma before_true (desc : bool) (a b : document) :
  Mongo.before desc a b = true -> doc_order desc a b.
Proof.
  unfold Mongo.before, doc_order, version_order. destruct desc; lia.
Qed.

Lemma before_false (desc : bool) (a b : document) :
  Mongo.before desc a b = false -> doc_order desc b a.
Proof.
  unfold Mongo.before, doc_order, version_order. destruct desc; lia.
Qed.

Lemma sort_insert_in (desc : bool) (d x : document) (l : list document) :
  In x (Mongo.sort_insert desc d l) <-> x = d \/ In x l.
Proof.
  induction l as [|y l IH]; simpl.
  - intuition congruence.
  - destruct (Mongo.before desc d y); simpl; [intuition congruence|].
    rewrite IH. intuition congruence.
Qed.

Lemma sort_in (desc : bool) (x : document) (l : list document) :
  In x (Mongo.sort desc l) <-> In x l.
Proof.
  unfold Mongo.sort. induction l as [|y l IH]; simpl; [tauto|].
  rewrite sort_insert_in, IH. intuition congruence.
Qed.

Lemma sort_insert_sorted (desc : bool) (d : document) (l : list document) :
  StronglySorted (doc_order desc) l ->
  StronglySorted (doc_order desc) (Mongo.sort_insert desc d l).
Proof.
  induction 1 as [|y l Hl IH Hy]; simpl.
  - repeat constructor.
  - destruct (Mongo.before desc d y) eqn:Hb.
    + apply before_true in Hb. constructor; [now constructor|].
      constructor; [assumption|].
      eapply Forall_impl; [|exact Hy]. intros z Hz.
      eapply version_order_trans; eassumption.
    + apply before_false in Hb. constructor; [assumption|].
      apply Forall_forall. intros z Hz. apply sort_insert_in in Hz.
      destruct Hz as [Hz|Hz]; [now subst z|].
      rewrite Forall_forall in Hy. auto.
Qed.

Lemma sort_sorted (desc : bool) (l : list document) :
  StronglySorted (doc_order desc) (Mongo.sort desc l).
Proof.
  unfold Mongo.sort. induction l as [|y l IH]; simpl.
  - constructor.
  - now apply sort_insert_sorted.
Qed.

Lemma in_firstn {A : Type} (n : nat) (l : list A) (x : A) :
  In x (firstn n l) -> In x l.
Proof.
  revert l; induction n as [|n IH]; intros [|y l]; simpl; try tauto.
  intros [H|H]; auto.
Qed.

Lemma firstn_sorted {A : Type} (R : A -> A -> Prop) (n : nat) (l : list A) :
  StronglySorted R l -> StronglySorted R (firstn n l).
Proof.
  intros H. revert n. induction H as [|y l Hl IH Hy]; intros [|n]; simpl;
    try constructor.
  - apply IH.
  - apply Forall_forall. intros z Hz. apply in_firstn in Hz.
    rewrite Forall_forall in Hy. auto.
Qed.

Lemma limit_in (n : Z) (l : list document) (x : document) :
  In x (Mongo.limit n l) -> In x l.
Proof.
  unfold Mongo.limit. destruct (n =? 0); [tauto | apply in_firstn].
Qed.

Lemma limit_sorted (R : document -> document -> Prop) (n : Z) (l : list document) :
  StronglySorted R l -> StronglySorted R (Mongo.limit n l).
Proof.
  unfold Mongo.limit. destruct (n =? 0); [tauto | apply firstn_sorted].
Qed.

Lemma limit_length (n : Z) (l : list document) :
  0 < n -> Z.of_nat (length (Mongo.limit n l)) <= n.
Proof.
  intros Hn. unfold Mongo.limit.
  destruct (n =? 0) eqn:H0; [lia|].
  pose proof (firstn_le_length (Z.abs_nat n) l). lia.
Qed.

Lemma versions_sorted (desc : bool) (l : list document) :
  StronglySorted (doc_order desc) l ->
  StronglySorted (version_order desc)
    (map originator_version (map to_stored_event l)).
Proof.
  induction 1 as [|y l Hl IH Hy]; simpl; constructor; [assumption|].
  rewrite Forall_forall in *. intros v Hv.
  apply in_map_iff in Hv as [e [Hv He]].
  apply in_map_iff in He as [d [He Hd]]. subst v e. apply (Hy d Hd).
Qed.

(** ** The query of [select_events] *)

(** What the query built by [select_events] accepts. *)
Lemma select_query_matches (u : UUID) (gt lte : option Z) (d : document) :
  Mongo.matches (apply_params (Mongo.mkQuery (Some u) None None) gt lte) d = true
  <-> d_originator_id d = u /\ in_bounds gt lte (d_originator_version d).
Proof.
  unfold apply_params, in_bounds, Mongo.matches.
  destruct (truthy gt) eqn:Hgt, (truthy lte) eqn:Hlte; simpl;
    rewrite ?andb_true_iff, ?N.eqb_eq, ?Z.ltb_lt, ?Z.leb_le;
    intuition (try discriminate; auto).
Qed.

(** ** Claims on [select_events] *)

Lemma filter_none {A : Type} (f : A -> bool) (l : list A) :
  (forall x, In x l -> f x = false) -> filter f l = [].
Proof.
  induction l as [|y l IH]; simpl; intros H; [reflexivity|].
  rewrite (H y) by now left. apply IH. intros x Hx. apply H. now right.
Qed.

(** Every event [select_events] returns is a stored event of the stream
    within the bounds that count. *)
Lemma select_events_within_bounds
  (coll : collection) (u : UUID) (gt lte : option Z) (desc : bool)
  (limit : option Z) (l : list StoredEvent) :
  select_events coll u gt lte desc limit = Returned l ->
  Forall (fun e => originator_id e = u /\
                   in_bounds gt lte (originator_version e) /\
                   exists d, In d coll /\ to_stored_event d = e) l.
Proof.
  unfold select_events. intros H. inversion H; subst l; clear H.
  apply Forall_forall. intros e He.
  apply in_map_iff in He as [d [He Hd]].
  assert (Hs : In d (Mongo.sort desc
                       (Mongo.find
                          (apply_params (Mongo.mkQuery (Some u) None None) gt lte)
                          coll))).
  { destruct (truthy limit); [now apply limit_in in Hd | assumption]. }
  apply sort_in in Hs. unfold Mongo.find in Hs.
  apply filter_In in Hs as [Hin Hm]. apply select_query_matches in Hm as [Hu Hb].
  subst e. simpl. repeat split; try assumption; try apply Hb.
  now exists d.
Qed.

(** C4 at the scenario of the specification: after versions 0, 1 and 2 are
    appended to stream [A], a read with [gt = 0] returns all three events,
    version 0 included. *)
Theorem select_events_gt_zero_returns_all :
  exists out,
    insert_events [] batch_A = Some (Returned out) /\
    select_events (i_collection out) stream_A (Some 0) None false None
    = Returned batch_A /\
    In (event stream_A 0 "Created") batch_A.
Proof.
  eexists. split; [vm_compute; reflexivity|].
  split; [vm_compute; reflexivity|]. simpl. now left.
Qed.

(** C8, as the claim states it, fails: a limit of 0 is given and all three
    events of the stream come back. *)
Lemma select_events_limit_zero_returns_all :
  select_events store_A stream_A None None false (Some 0) = Returned batch_A /\
  ~ (Z.of_nat (length batch_A) <= 0).
Proof.
  split; [vm_compute; reflexivity|]. simpl. lia.
Qed.

(** ** The loop of [select_notifications] *)

Section NotificationLoop.

Variable stop : option Z.
Variable topics : list string.

(** A returned notification is the document at its position of the cursor,
    numbered from [start]. *)
Lemma notification_loop_in (cursor : list document) :
  forall start n,
    In n (notification_loop stop topics (enumerate cursor start)) ->
    exists j d,
      nth_error cursor j = Some d /\ n = notification_of (start + Z.of_nat j) d.
Proof.
  induction cursor as [|obj cursor IH]; intros start n Hn; simpl in Hn;
    [destruct Hn|].
  destruct (match stop with Some s => s - 1 <? start | None => false end);
    [destruct Hn|].
  assert (Hrest : In n (notification_loop stop topics
                          (enumerate cursor (start + 1))) ->
                  exists j d, nth_error (obj :: cursor) j = Some d /\
                              n = notification_of (start + Z.of_nat j) d).
  { intros H. destruct (IH _ _ H) as [j [d [Hj Hd]]].
    exists (S j), d. split; [assumption|]. subst n. f_equal. lia. }
  destruct (negb (is_empty topics) && negb (topic_in topics (d_topic obj)));
    [auto|].
  destruct Hn as [Hn|Hn]; [|auto].
  exists O, obj. split; [reflexivity|]. subst n. f_equal. lia.
Qed.

Lemma notification_loop_length (cursor : list document) :
  forall start,
    (length (notification_loop stop topics (enumerate cursor start))
     <= length cursor)%nat.
Proof.
  induction cursor as [|obj cursor IH]; intros start; simpl; [lia|].
  destruct (match stop with Some s => s - 1 <? start | None => false end);
    [simpl; lia|].
  specialize (IH (start + 1)).
  destruct (negb (is_empty topics) && negb (topic_in topics (d_topic obj)));
    simpl; lia.
Qed.

Lemma notification_loop_ascending (cursor : list document) :
  forall start,
    StronglySorted Z.lt
      (map id (notification_loop stop topics (enumerate cursor start))).
Proof.
  induction cursor as [|obj cursor IH]; intros start; simpl; [constructor|].
  destruct (match stop with Some s => s - 1 <? start | None => false end);
    [constructor|].
  destruct (negb (is_empty topics) && negb (topic_in topics (d_topic obj)));
    [apply IH|].
  simpl. constructor; [apply IH|].
  apply Forall_forall. intros i Hi. apply in_map_iff in Hi as [n [Hi Hn]].
  apply notification_loop_in in Hn as [j [d [_ Hn]]]. subst i n. simpl. lia.
Qed.

Lemma notification_loop_stop (cursor : list document) (s : Z) :
  stop = Some s ->
  forall start,
    Forall (fun n => id n < s)
      (notification_loop stop topics (enumerate cursor start)).
Proof.
  intros Hs. subst stop.
  induction cursor as [|obj cursor IH]; intros start; simpl; [constructor|].
  destruct (s - 1 <? start) eqn:Hbreak; [constructor|].
  destruct (negb (is_empty topics) && negb (topic_in topics (d_topic obj)));
    [apply IH|].
  constructor; [simpl; lia | apply IH].
Qed.

Lemma notification_loop_topics (cursor : list document) :
  is_empty topics = false ->
  forall start,
    Forall (fun n => topic_in topics (n_topic n) = true)
      (notification_loop stop topics (enumerate cursor start)).
Proof.
  intros Hne.
  induction cursor as [|obj cursor IH]; intros start; simpl; [constructor|].
  destruct (match stop with Some s => s - 1 <? start | None => false end);
    [constructor|].
  rewrite Hne.
  destruct (topic_in topics (d_topic obj)) eqn:Ht; simpl; [|apply IH].
  constructor; [exact Ht | apply IH].
Qed.

End NotificationLoop.

(** Without [stop], the loop with topics is the loop without, filtered. *)
Lemma notification_loop_filter (topics : list string) (cursor : list document) :
  is_empty topics = false ->
  forall start,
    notification_loop None topics (enumerate cursor start)
    = filter (fun n => topic_in topics (n_topic n))
        (notification_loop None [] (enumerate cursor start)).
Proof.
  intros Hne.
  induction cursor as [|obj cursor IH]; intros start; simpl; [reflexivity|].
  rewrite Hne.
  destruct (topic_in topics (d_topic obj)); simpl; rewrite IH; reflexivity.
Qed.

(** ** Claims on [select_notifications] *)

Lemma find_everything (coll : collection) :
  Mongo.find Mongo.empty_query coll = coll.
Proof.
  unfold Mongo.find. induction coll as [|d coll IH]; simpl; [reflexivity|].
  now rewrite IH.
Qed.

Lemma limit_nth_error (n : Z) (l : list document) (j : nat) (d : document) :
  nth_error (Mongo.limit n l) j = Some d -> nth_error l j = Some d.
Proof.
  unfold Mongo.limit. destruct (n =? 0); [tauto|].
  rewrite nth_error_firstn. destruct (j <? Z.abs_nat n)%nat;
    [tauto | discriminate].
Qed.

(** C5, as the claim states it, fails on the scenario's store: with a limit
    of 0 all three notifications are returned; with a start of 0 the call
    raises; and with a stop of 2 the notification whose id is 2 is left
    out. *)
Lemma select_notifications_edge_cases :
  select_notifications store_A 1 0 None []
  = Returned [notification_1; notification_2; notification_3] /\
  select_notifications store_A 0 10 None [] = Raised ValueError /\
  select_notifications store_A 1 10 (Some 2) [] = Returned [notification_1].
Proof. repeat split; vm_compute; reflexivity. Qed.

(** C5 (amended): for a start and a limit of at least 1,
    [select_notifications] returns at most [limit] notifications, in
    ascending id order, each the stored document at the position its id
    names, all with id at least [start] and, when [stop] is given, at most
    [stop]; when [topics] is not empty the topic of each is in [topics]. *)
Theorem select_notifications_window
  (coll : collection) (start limit : Z) (stop : option Z)
  (topics : list string) :
  1 <= start ->
  1 <= limit ->
  exists l,
    select_notifications coll start limit stop topics = Returned l /\
    Z.of_nat (length l) <= limit /\
    StronglySorted Z.lt (map id l) /\
    Forall (fun n => start <= id n /\
                     exists d, nth_error coll (Z.to_nat (id n - 1)) = Some d /\
                               n = notification_of (id n) d) l /\
    (forall s, stop = Some s -> Forall (fun n => id n <= s) l) /\
    (is_empty topics = false ->
     Forall (fun n => topic_in topics (n_topic n) = true) l).
Proof.
  intros Hstart Hlimit. unfold select_notifications, Mongo.skip.
  replace (start - 1 <? 0) with false by lia. simpl.
  rewrite find_everything.
  set (cursor := Mongo.limit limit (skipn (Z.to_nat (start - 1)) coll)).
  eexists. split; [reflexivity|]. repeat split.
  - pose proof (notification_loop_length stop topics cursor start) as Hlen.
    pose proof (limit_length limit (skipn (Z.to_nat (start - 1)) coll)) as Hcap.
    fold cursor in Hcap. lia.
  - apply notification_loop_ascending.
  - apply Forall_forall. intros n Hn.
    apply notification_loop_in in Hn as [j [d [Hj Hn]]].
    apply limit_nth_error in Hj. rewrite nth_error_skipn in Hj.
    subst n. simpl. split; [lia|]. exists d. split; [|reflexivity].
    replace (Z.to_nat (start + Z.of_nat j - 1))
      with (Z.to_nat (start - 1) + j)%nat by lia.
    assumption.
  - intros s Hs. eapply Forall_impl;
      [|apply (notification_loop_stop stop topics cursor s Hs)].
    simpl. intros n Hn. lia.
  - intros Hne. now apply notification_loop_topics.
Qed.

(** A window of two notifications of the scenario's store, from id 2. *)
Lemma select_notifications_window_witness :
  exists l,
    select_notifications store_A 2 2 (Some 3) ["Updated"%string] = Returned l /\
    Z.of_nat (length l) <= 2 /\
    StronglySorted Z.lt (map id l) /\
    Forall (fun n => 2 <= id n /\
                     exists d, nth_error store_A (Z.to_nat (id n - 1)) = Some d /\
                               n = notification_of (id n) d) l /\
    (forall s, Some 3 = Some s -> Forall (fun n => id n <= s) l) /\
    (is_empty ["Updated"%string] = false ->
     Forall (fun n => topic_in ["Updated"%string] (n_topic n) = true) l).
Proof.
  apply (select_notifications_window store_A 2 2 (Some 3) ["Updated"%string]);
    lia.
Defined.

(** C10: with a non-empty [topics] and no [stop], [select_notifications]
    returns the notifications of the same call without topics that have
    their topic in [topics]; for a start and a limit of at least 1 they all
    lie among the [limit] positions from [start], whatever matches beyond. *)
Theorem select_notifications_filters_the_window
  (coll : collection) (start limit : Z) (topics : list string) :
  is_empty topics = false ->
  select_notifications coll start limit None topics
  = omap (filter (fun n => topic_in topics (n_topic n)))
      (select_notifications coll start limit None []) /\
  (1 <= start -> 1 <= limit ->
   forall l, select_notifications coll start limit None topics = Returned l ->
             Forall (fun n => start <= id n < start + limit) l).
Proof.
  intros Hne. unfold select_notifications, Mongo.skip. split.
  - destruct (start - 1 <? 0); [reflexivity|]. unfold omap. simpl.
    rewrite (notification_loop_filter topics) by assumption. reflexivity.
  - intros Hstart Hlimit l Hl.
    replace (start - 1 <? 0) with false in Hl by lia. simpl in Hl.
    inversion Hl; subst l; clear Hl.
    apply Forall_forall. intros n Hn.
    apply notification_loop_in in Hn as [j [d [Hj Hn]]].
    apply nth_error_some_lt in Hj.
    pose proof (limit_length limit
                  (skipn (Z.to_nat (start - 1))
                     (Mongo.find Mongo.empty_query coll))) as Hcap.
    subst n. simpl. lia.
Qed.

(** On the scenario's store, a window of one notification from id 1 holds
    no "Updated" notification, though ids 2 and 3 carry that topic. *)
Lemma select_notifications_filters_the_window_witness :
  select_notifications store_A 1 1 None ["Updated"%string]
  = omap (filter (fun n => topic_in ["Updated"%string] (n_topic n)))
      (select_notifications store_A 1 1 None []) /\
  (1 <= 1 -> 1 <= 1 ->
   forall l, select_notifications store_A 1 1 None ["Updated"%string] = Returned l ->
             Forall (fun n => 1 <= id n < 1 + 1) l).
Proof.
  apply (select_notifications_filters_the_window store_A 1 1 ["Updated"%string]).
  reflexivity.
Defined.

(** ** Claim on [max_tracking_id] *)

(** C6 at every input: [find_one] returns a document or [None], neither
    has a [sort] method, and the call raises [AttributeError]; it returns
    neither the highest recorded id nor 0. *)
Theorem max_tracking_id_raises (coll : collection) (application_name : string) :
  max_tracking_id coll application_name = Raised AttributeError.
Proof.
  unfold max_tracking_id, Mongo.find_one. destruct coll; reflexivity.
Qed.

(** * Further properties of the recorders *)

(** ** The unique index is kept *)





(** ** What [insert_events] returns and what it leaves alone *)








(** ** Reading back what was inserted *)

(** The documents a read of stream [u] is built from. *)
Lemma read_cursor_in (coll : collection) (u : UUID) (gt lte : option Z)
  (desc : bool) (d : document) :
  In d (Mongo.sort desc
          (Mongo.find (apply_params (Mongo.mkQuery (Some u) None None) gt lte)
             coll))
  <-> In d coll /\ d_originator_id d = u /\
      in_bounds gt lte (d_originator_version d).
Proof.
  rewrite sort_in. unfold Mongo.find. rewrite filter_In, select_query_matches.
  tauto.
Qed.

(** X5: without a limit, [select_events] returns exactly the stored events of
    the stream whose version is within the bounds that count: above [gt]
    and at most [lte], a bound that is [None] or 0 setting no bound. *)
Theorem select_events_exactly_in_bounds
  (coll : collection) (u : UUID) (gt lte : option Z) (desc : bool) :
  exists l,
    select_events coll u gt lte desc None = Returned l /\
    forall e,
      In e l <->
      originator_id e = u /\ in_bounds gt lte (originator_version e) /\
      exists d, In d coll /\ to_stored_event d = e.
Proof.
  eexists. split; [reflexivity|]. intros e. simpl. rewrite in_map_iff. split.
  - intros [d [He Hd]]. apply read_cursor_in in Hd as [Hin [Hu Hb]].
    subst e. simpl. repeat split; try assumption; try apply Hb. now exists d.
  - intros [Hu [Hb [d [Hin He]]]]. exists d. split; [assumption|].
    apply read_cursor_in. subst e. auto.
Qed.



(** ** Notifications by id, page and stop *)

Lemma notification_loop_all (cursor : list document) :
  forall start,
    notification_loop None [] (enumerate cursor start)
    = notifications_from start cursor.
Proof.
  unfold notifications_from.
  induction cursor as [|obj cursor IH]; intros start; simpl; [reflexivity|].
  now rewrite IH.
Qed.

Lemma notifications_from_ids (cursor : list document) :
  forall start,
    map id (notifications_from start cursor)
    = consecutive start (length cursor).
Proof.
  unfold notifications_from.
  induction cursor as [|obj cursor IH]; intros start; simpl; [reflexivity|].
  now rewrite IH.
Qed.

Lemma enumerate_length {A : Type} (l : list A) :
  forall start, length (enumerate l start) = length l.
Proof.
  induction l as [|x l IH]; intros start; simpl; [reflexivity|].
  now rewrite IH.
Qed.

Lemma limit_covers (n : Z) (l : list document) :
  n = 0 \/ Z.of_nat (length l) <= n -> Mongo.limit n l = l.
Proof.
  intros H. unfold Mongo.limit. destruct (n =? 0) eqn:H0; [reflexivity|].
  apply firstn_all2. lia.
Qed.

(** X7: a scan from id 1 with no limit (0), or a limit of at least
    [max_notification_id], and neither stop nor topics returns the whole
    collection in natural order, its documents numbered 1, 2, ... up to
    [max_notification_id] without a gap. *)
Theorem select_notifications_whole_log (coll : collection) (limit : Z) :
  limit = 0 \/ max_notification_id coll <= limit ->
  select_notifications coll 1 limit None []
  = Returned (notifications_from 1 coll) /\
  map id (notifications_from 1 coll) = consecutive 1 (length coll) /\
  Z.of_nat (length (notifications_from 1 coll)) = max_notification_id coll.
Proof.
  intros Hlimit. unfold select_notifications, Mongo.skip. simpl.
  rewrite find_everything, limit_covers by exact Hlimit.
  rewrite notification_loop_all. split; [reflexivity|].
  split; [apply notifications_from_ids|].
  unfold notifications_from, max_notification_id, Mongo.count.
  now rewrite length_map, enumerate_length.
Qed.

(** The scenario's store, scanned with a limit of 5. *)
Lemma select_notifications_whole_log_witness :
  select_notifications store_A 1 5 None []
  = Returned (notifications_from 1 store_A) /\
  map id (notifications_from 1 store_A) = consecutive 1 (length store_A) /\
  Z.of_nat (length (notifications_from 1 store_A)) = max_notification_id store_A.
Proof.
  apply (select_notifications_whole_log store_A 5).
  right. vm_compute. discriminate.
Defined.

Lemma notification_loop_from (stop : option Z) (topics : list string)
  (cursor : list document) (start : Z) :
  Forall (fun n => start <= id n)
    (notification_loop stop topics (enumerate cursor start)).
Proof.
  apply Forall_forall. intros n Hn.
  apply notification_loop_in in Hn as [j [d [_ Hn]]]. subst n. simpl. lia.
Qed.

Lemma notification_loop_stop_filter (topics : list string) (s : Z)
  (cursor : list document) :
  forall start,
    notification_loop (Some s) topics (enumerate cursor start)
    = filter (fun n => id n <? s)
        (notification_loop None topics (enumerate cursor start)).
Proof.
  induction cursor as [|obj cursor IH]; intros start; [reflexivity|].
  destruct (s - 1 <? start) eqn:Hbreak.
  - simpl. rewrite Hbreak. symmetry. apply filter_none. intros n Hn.
    pose proof (notification_loop_from None topics (obj :: cursor) start) as Hfrom.
    rewrite Forall_forall in Hfrom. specialize (Hfrom n Hn). lia.
  - simpl. rewrite Hbreak.
    destruct (negb (is_empty topics) && negb (topic_in topics (d_topic obj)));
      [apply IH|].
    simpl. replace (start <? s) with true by lia. now rewrite IH.
Qed.

(** X8: [stop] is exclusive: a call with [stop] returns the notifications of
    the same call without it whose id is below [stop], and raises when that
    call raises. *)
Theorem select_notifications_stop_is_exclusive
  (coll : collection) (start limit s : Z) (topics : list string) :
  select_notifications coll start limit (Some s) topics
  = omap (filter (fun n => id n <? s))
      (select_notifications coll start limit None topics).
Proof.
  unfold select_notifications, Mongo.skip, omap.
  destruct (start - 1 <? 0); [reflexivity|]. simpl.
  now rewrite notification_loop_stop_filter.
Qed.

Lemma enumerate_app {A : Type} (l1 l2 : list A) :
  forall start,
    enumerate (l1 ++ l2) start
    = enumerate l1 start ++ enumerate l2 (start + Z.of_nat (length l1)).
Proof.
  induction l1 as [|x l1 IH]; intros start; simpl.
  - f_equal. lia.
  - rewrite IH. do 3 f_equal. lia.
Qed.

Lemma notification_loop_app (topics : list string)
  (items1 items2 : list (Z * document)) :
  notification_loop None topics (items1 ++ items2)
  = notification_loop None topics items1 ++ notification_loop None topics items2.
Proof.
  induction items1 as [|[i obj] items1 IH]; simpl; [reflexivity|].
  destruct (negb (is_empty topics) && negb (topic_in topics (d_topic obj)));
    simpl; now rewrite IH.
Qed.

Lemma firstn_plus {A : Type} (n m : nat) (l : list A) :
  firstn (n + m) l = firstn n l ++ firstn m (skipn n l).
Proof.
  revert l; induction n as [|n IH]; intros [|x l]; simpl;
    try reflexivity.
  - now rewrite firstn_nil.
  - now rewrite IH.
Qed.

(** X9: pages join: without [stop], the page of [a] notifications from [start]
    followed by the page of [b] notifications from [start + a] is the page
    of [a + b] notifications from [start], with or without topics. *)
Theorem select_notifications_pages_join
  (coll : collection) (start a b : Z) (topics : list string) :
  1 <= start -> 1 <= a -> 1 <= b ->
  exists page1 page2,
    select_notifications coll start a None topics = Returned page1 /\
    select_notifications coll (start + a) b None topics = Returned page2 /\
    select_notifications coll start (a + b) None topics
    = Returned (page1 ++ page2).
Proof.
  intros Hstart Ha Hb. unfold select_notifications, Mongo.skip, Mongo.limit.
  replace (start - 1 <? 0) with false by lia.
  replace (start + a - 1 <? 0) with false by lia.
  replace (a =? 0) with false by lia.
  replace (b =? 0) with false by lia.
  replace (a + b =? 0) with false by lia.
  simpl. rewrite find_everything.
  eexists. eexists. split; [reflexivity|]. split; [reflexivity|].
  f_equal.
  set (l := skipn (Z.to_nat (start - 1)) coll).
  replace (Z.abs_nat (a + b)) with (Z.abs_nat a + Z.abs_nat b)%nat by lia.
  rewrite firstn_plus, enumerate_app, notification_loop_app. f_equal.
  replace (skipn (Z.to_nat (start + a - 1)) coll) with (skipn (Z.abs_nat a) l).
  2: { unfold l. rewrite skipn_skipn. f_equal. lia. }
  destruct (Nat.le_gt_cases (Z.abs_nat a) (length l)) as [Hfull|Hshort].
  - rewrite length_firstn, Nat.min_l by assumption.
    do 2 f_equal. lia.
  - rewrite (skipn_all2 l) by lia. now rewrite firstn_nil.
Qed.

(** Two pages of the scenario's store. *)
Lemma select_notifications_pages_join_witness :
  exists page1 page2,
    select_notifications store_A 1 2 None ["Updated"%string] = Returned page1 /\
    select_notifications store_A (1 + 2) 3 None ["Updated"%string]
    = Returned page2 /\
    select_notifications store_A 1 (2 + 3) None ["Updated"%string]
    = Returned (page1 ++ page2).
Proof.
  apply (select_notifications_pages_join store_A 1 2 3 ["Updated"%string]); lia.
Defined.






(** ** Reads under the unique index *)

Lemma sort_insert_perm (desc : bool) (d : document) (l : list document) :
  Permutation (Mongo.sort_insert desc d l) (d :: l).
Proof.
  induction l as [|x l IH]; simpl; [reflexivity|].
  destruct (Mongo.before desc d x); [reflexivity|].
  rewrite IH. apply perm_swap.
Qed.

Lemma sort_perm (desc : bool) (l : list document) :
  Permutation (Mongo.sort desc l) l.
Proof.
  unfold Mongo.sort. induction l as [|x l IH]; simpl; [reflexivity|].
  rewrite sort_insert_perm. now constructor.
Qed.

Lemma filter_unique_keys (f : document -> bool) (c : collection) :
  unique_keys c -> unique_keys (filter f c).
Proof.
  unfold unique_keys. induction c as [|d c IH]; simpl; intros H; [assumption|].
  inversion H as [|? ? Hnotin Hrest]; subst.
  destruct (f d); simpl; [|auto].
  constructor; [|auto]. intros Hin. apply Hnotin.
  apply in_map_iff in Hin as [x [Hk Hx]]. apply filter_In in Hx as [Hx _].
  rewrite <- Hk. now apply in_map.
Qed.

Lemma stream_versions_nodup (u : UUID) (l : list document) :
  unique_keys l ->
  (forall d, In d l -> d_originator_id d = u) ->
  NoDup (map d_originator_version l).
Proof.
  unfold unique_keys. intros Huniq Hstream.
  apply (NoDup_map_inv (pair u)).
  replace (map (pair u) (map d_originator_version l)) with (map key l);
    [assumption|].
  rewrite map_map. apply map_ext_in. intros d Hd. unfold key.
  now rewrite (Hstream d Hd).
Qed.

Lemma read_cursor_versions_nodup (coll : collection) (u : UUID)
  (gt lte : option Z) (desc : bool) :
  unique_keys coll ->
  NoDup (map d_originator_version
           (Mongo.sort desc
              (Mongo.find (apply_params (Mongo.mkQuery (Some u) None None) gt lte)
                 coll))).
Proof.
  intros Huniq.
  eapply Permutation_NoDup.
  - apply Permutation_map. symmetry. apply sort_perm.
  - apply (stream_versions_nodup u).
    + now apply filter_unique_keys.
    + intros d Hd. apply filter_In in Hd as [_ Hm].
      now apply select_query_matches in Hm as [Hu _].
Qed.

Lemma sorted_strictly (desc : bool) (l : list document) :
  StronglySorted (doc_order desc) l ->
  NoDup (map d_originator_version l) ->
  StronglySorted
    (fun a b => strict_order desc (d_originator_version a) (d_originator_version b))
    l.
Proof.
  induction 1 as [|x l Hl IH Hx]; intros Hnodup; constructor.
  - apply IH. now inversion Hnodup.
  - inversion Hnodup as [|? ? Hnotin _]; subst.
    rewrite Forall_forall in *. intros y Hy. specialize (Hx y Hy).
    assert (Hne : d_originator_version y <> d_originator_version x).
    { intros Heq. apply Hnotin. rewrite <- Heq. now apply in_map. }
    unfold doc_order, version_order, strict_order in *. destruct desc; lia.
Qed.

Lemma firstn_nodup {A : Type} (n : nat) (l : list A) :
  NoDup l -> NoDup (firstn n l).
Proof.
  intros H. revert n. induction H as [|x l Hnotin Hl IH]; intros [|n]; simpl;
    try constructor.
  - intros Hin. apply Hnotin. eapply in_firstn; eassumption.
  - apply IH.
Qed.

(** X12: on a collection that the unique index holds on, [select_events]
    returns no version twice: the versions are strictly ascending, or
    strictly descending when [desc] is set, whatever the bounds and the
    limit. *)
Theorem select_events_versions_strict
  (coll : collection) (u : UUID) (gt lte : option Z) (desc : bool)
  (limit : option Z) :
  unique_keys coll ->
  exists l,
    select_events coll u gt lte desc limit = Returned l /\
    StronglySorted (strict_order desc) (map originator_version l) /\
    NoDup (map originator_version l).
Proof.
  intros Huniq. eexists. split; [reflexivity|].
  set (cursor := Mongo.sort desc _).
  assert (Hsorted : StronglySorted
            (fun a b => strict_order desc (d_originator_version a)
                          (d_originator_version b)) cursor).
  { apply sorted_strictly; [apply sort_sorted|].
    now apply read_cursor_versions_nodup. }
  assert (Hnodup : NoDup (map d_originator_version cursor))
    by now apply read_cursor_versions_nodup.
  assert (Hmap : forall c, map originator_version (map to_stored_event c)
                           = map d_originator_version c).
  { intros c. rewrite map_map. reflexivity. }
  rewrite Hmap.
  assert (Hlift : forall c,
            StronglySorted
              (fun a b => strict_order desc (d_originator_version a)
                            (d_originator_version b)) c ->
            StronglySorted (strict_order desc) (map d_originator_version c)).
  { induction 1 as [|x c Hc IH Hx]; simpl; constructor; [assumption|].
    rewrite Forall_forall in *. intros v Hv.
    apply in_map_iff in Hv as [y [Hv Hy]]. subst v. auto. }
  destruct (truthy limit); [|split; [now apply Hlift | assumption]].
  unfold Mongo.limit. destruct (unwrap limit =? 0).
  - split; [now apply Hlift | assumption].
  - split.
    + apply Hlift. now apply firstn_sorted.
    + rewrite <- firstn_map. now apply firstn_nodup.
Qed.

(** The scenario's store read downwards. *)
Lemma select_events_versions_strict_witness :
  exists l,
    select_events store_A stream_A None (Some 2) true (Some 2) = Returned l /\
    StronglySorted (strict_order true) (map originator_version l) /\
    NoDup (map originator_version l).
Proof.
  apply (select_events_versions_strict store_A stream_A None (Some 2) true
           (Some 2)).
  unfold unique_keys, store_A. simpl.
  repeat constructor; simpl; intuition discriminate.
Defined.

Lemma sorted_app {A : Type} (R : A -> A -> Prop) (l1 l2 : list A) :
  StronglySorted R l1 -> StronglySorted R l2 ->
  (forall x y, In x l1 -> In y l2 -> R x y) ->
  StronglySorted R (l1 ++ l2).
Proof.
  induction 1 as [|a l1 Hl1 IH Ha]; intros H2 Hcross; simpl; [assumption|].
  constructor.
  - apply IH; [assumption|]. intros x y Hx Hy. apply Hcross; simpl; auto.
  - apply Forall_app. split; [assumption|].
    apply Forall_forall. intros y Hy. apply Hcross; simpl; auto.
Qed.

Lemma sorted_rev {A : Type} (R : A -> A -> Prop) (l : list A) :
  StronglySorted R l -> StronglySorted (fun a b => R b a) (rev l).
Proof.
  induction 1 as [|a l Hl IH Ha]; simpl; [constructor|].
  apply sorted_app; [assumption | repeat constructor |].
  intros x y Hx [Hy|[]]. subst y. apply in_rev in Hx.
  rewrite Forall_forall in Ha. auto.
Qed.

(** Two lists sorted by one asymmetric relation that hold the same
    elements are the same list. *)
Lemma sorted_unique {A : Type} (R : A -> A -> Prop) :
  (forall a b, R a b -> R b a -> False) ->
  forall l1 l2 : list A,
    StronglySorted R l1 -> StronglySorted R l2 ->
    (forall x, In x l1 <-> In x l2) ->
    l1 = l2.
Proof.
  intros Hasym l1. induction l1 as [|a l1 IH]; intros l2 H1 H2 Hsame.
  - destruct l2 as [|b l2]; [reflexivity|].
    destruct (proj2 (Hsame b)). now left.
  - destruct l2 as [|b l2]; [destruct (proj1 (Hsame a)); now left|].
    inversion H1 as [|? ? Ht1 Ha]; subst.
    inversion H2 as [|? ? Ht2 Hb]; subst.
    rewrite Forall_forall in Ha, Hb.
    assert (Hab : a = b).
    { destruct (proj1 (Hsame a) (or_introl eq_refl)) as [Heq|Hin];
        [now symmetry|].
      destruct (proj2 (Hsame b) (or_introl eq_refl)) as [Heq|Hin'];
        [assumption|].
      destruct (Hasym a b); auto. }
    subst b. f_equal. apply IH; try assumption.
    intros x. split; intros Hx.
    + destruct (proj1 (Hsame x) (or_intror Hx)) as [Heq|Hin]; [|assumption].
      subst x. destruct (Hasym a a); auto.
    + destruct (proj2 (Hsame x) (or_intror Hx)) as [Heq|Hin]; [|assumption].
      subst x. destruct (Hasym a a); auto.
Qed.

(** X13: on a collection that the unique index holds on, the descending read
    without limit is the ascending read reversed. *)
Theorem select_events_desc_is_reverse
  (coll : collection) (u : UUID) (gt lte : option Z) :
  unique_keys coll ->
  select_events coll u gt lte true None
  = omap (@rev StoredEvent) (select_events coll u gt lte false None).
Proof.
  intros Huniq. unfold select_events, omap. simpl. f_equal.
  rewrite <- map_rev. f_equal.
  set (q := apply_params (Mongo.mkQuery (Some u) None None) gt lte).
  apply (sorted_unique
           (fun a b => d_originator_version b < d_originator_version a)).
  - intros a b Hab Hba. lia.
  - apply (sorted_strictly true); [apply sort_sorted|].
    now apply read_cursor_versions_nodup.
  - apply (sorted_rev (fun a b => d_originator_version a < d_originator_version b)).
    apply (sorted_strictly false); [apply sort_sorted|].
    now apply read_cursor_versions_nodup.
  - intros d. rewrite <- in_rev, !sort_in. tauto.
Qed.

(** The scenario's store read both ways. *)
Lemma select_events_desc_is_reverse_witness :
  select_events store_A stream_A (Some 1) None true None
  = omap (@rev StoredEvent) (select_events store_A stream_A (Some 1) None false None).
Proof.
  apply (select_events_desc_is_reverse store_A stream_A (Some 1) None).
  unfold unique_keys, store_A. simpl.
  repeat constructor; simpl; intuition discriminate.
Defined.

(** ** Where a conflicting event ends up *)





(** ** Recorders over a database *)












(** ** Ids are stable *)



(** ** The first event of a read *)

Lemma version_order_refl (desc : bool) (a : Z) : version_order desc a a.
Proof. unfold version_order. destruct desc; lia. Qed.

(** X20: with a limit of 1, [select_events] returns the stored event of the
    stream with the lowest version within the bounds, or with the highest
    when [desc] is set, and the empty list when the stream has no event
    within the bounds. *)
Theorem select_events_limit_one_is_extreme
  (coll : collection) (u : UUID) (gt lte : option Z) (desc : bool) :
  exists l,
    select_events coll u gt lte desc (Some 1) = Returned l /\
    ((l = [] /\
      forall d, In d coll -> d_originator_id d = u ->
                ~ in_bounds gt lte (d_originator_version d)) \/
     (exists d0,
        l = [to_stored_event d0] /\ In d0 coll /\ d_originator_id d0 = u /\
        in_bounds gt lte (d_originator_version d0) /\
        forall d, In d coll -> d_originator_id d = u ->
                  in_bounds gt lte (d_originator_version d) ->
                  version_order desc (d_originator_version d0)
                    (d_originator_version d))).
Proof.
  eexists. split; [reflexivity|]. simpl.
  pose proof (sort_sorted desc
                (Mongo.find
                   (apply_params (Mongo.mkQuery (Some u) None None) gt lte)
                   coll)) as Hsorted.
  pose proof (fun d => read_cursor_in coll u gt lte desc d) as Hin.
  destruct (Mongo.sort desc _) as [|x rest].
  - left. split; [reflexivity|]. intros d Hd Hu Hb.
    apply (proj2 (Hin d)). auto.
  - right. exists x.
    destruct (proj1 (Hin x) (or_introl eq_refl)) as [Hx [Hu Hb]].
    repeat split; try assumption; try apply Hb.
    intros d Hd Hdu Hdb.
    destruct (proj2 (Hin d) (conj Hd (conj Hdu Hdb))) as [Heq|Hrest].
    + subst d. apply version_order_refl.
    + inversion Hsorted as [|? ? _ Hall]; subst.
      rewrite Forall_forall in Hall. apply (Hall d Hrest).
Qed.

(** * The insert with the driver's encoder *)

Lemma insert_one_encoded_cases (c : collection) (e : StoredEvent) :
  (Mongo.encodable (originator_version e) = false /\
   Mongo.insert_one_encoded c e = Raised OverflowError) \/
  (Mongo.encodable (originator_version e) = true /\
   Mongo.has_key (originator_id e) (originator_version e) c = true /\
   Mongo.insert_one_encoded c e = Raised DuplicateKeyError) \/
  (Mongo.encodable (originator_version e) = true /\
   Mongo.has_key (originator_id e) (originator_version e) c = false /\
   Mongo.insert_one_encoded c e = Returned (c ++ [Mongo.with_id (length c) e])).
Proof.
  unfold Mongo.insert_one_encoded.
  destruct (Mongo.encodable (originator_version e)); [|now left].
  right. destruct (insert_one_cases c e) as [[Hk Hins]|[Hk Hins]]; auto.
Qed.

Section EncodedLoop.

Variable P : collection -> list StoredEvent -> nat -> list Z -> Prop.

Hypothesis keep_inserted : forall coll lst i ids e,
  P coll lst i ids ->
  nth_error lst i = Some e ->
  Mongo.has_key (originator_id e) (originator_version e) coll = false ->
  P (coll ++ [Mongo.with_id (length coll) e]) lst (S i)
    (ids ++ [Mongo.count coll + 1]).

Hypothesis keep_duplicate : forall coll lst i ids e,
  P coll lst i ids ->
  nth_error lst i = Some e ->
  Mongo.has_key (originator_id e) (originator_version e) coll = true ->
  P coll (lst ++ [bump e]) (S i) (ids ++ [Mongo.count coll]).

(** An invariant of the loop holds where the call ends: at the end of the
    list when it returns, at the event that could not be encoded when it
    raises. *)
Lemma insert_loop_encoded_invariant (fuel : nat) :
  forall coll lst i ids r coll' lst',
    P coll lst i ids ->
    insert_loop_encoded fuel coll lst i ids = Some (r, coll', lst') ->
    exists i' ids',
      P coll' lst' i' ids' /\
      ((r = Returned ids' /\ (length lst' <= i')%nat) \/
       (r = Raised OverflowError /\
        exists e, nth_error lst' i' = Some e /\
                  Mongo.encodable (originator_version e) = false)).
Proof.
  induction fuel as [|fuel IH]; intros coll lst i ids r coll' lst' HP Hrun;
    simpl in Hrun; [discriminate|].
  destruct (nth_error lst i) as [e|] eqn:Hnth.
  - destruct (insert_one_encoded_cases coll e)
      as [[Henc Hins]|[[Henc [Hk Hins]]|[Henc [Hk Hins]]]];
      rewrite Hins in Hrun.
    + inversion Hrun; subst. exists i, ids. split; [assumption|].
      right. split; [reflexivity|]. now exists e.
    + eapply IH; [|exact Hrun]. now apply keep_duplicate.
    + eapply IH; [|exact Hrun]. rewrite count_snoc. now apply keep_inserted.
  - inversion Hrun; subst. exists i, ids. split; [assumption|].
    left. split; [reflexivity|]. now apply nth_error_None.
Qed.

End EncodedLoop.

Lemma insert_loop_encoded_total (fuel : nat) :
  forall C coll lst i ids,
    within C coll (skipn i lst) ->
    (potential C (skipn i lst) < fuel)%nat ->
    exists res, insert_loop_encoded fuel coll lst i ids = Some res.
Proof.
  induction fuel as [|fuel IH]; intros C coll lst i ids Hw Hfuel; [lia|].
  simpl. destruct (nth_error lst i) as [e|] eqn:Hnth; [|eauto].
  pose proof (nth_error_skipn_cons _ _ _ Hnth) as Hsk.
  pose proof (nth_error_some_lt _ _ _ Hnth) as Hlt.
  rewrite Hsk in Hw, Hfuel.
  assert (Hroom : originator_version e + 1 <= C).
  { destruct Hw as [_ Hp]. inversion Hp; subst. simpl length in *. lia. }
  destruct (insert_one_encoded_cases coll e)
    as [[Henc Hins]|[[Henc [Hk Hins]]|[Henc [Hk Hins]]]]; rewrite Hins.
  - eauto.
  - apply (IH C).
    + rewrite skipn_snoc by lia. now apply within_duplicate.
    + rewrite skipn_snoc by lia. rewrite potential_snoc.
      rewrite potential_cons in Hfuel. simpl originator_version. lia.
  - apply (IH C).
    + now apply within_inserted.
    + rewrite potential_cons in Hfuel. lia.
Qed.

(** The encoded call always ends, and an invariant that holds when the loop
    starts holds where it ends. *)
Lemma insert_events_encoded_run
  (P : collection -> list StoredEvent -> nat -> list Z -> Prop) :
  (forall coll lst i ids e,
     P coll lst i ids -> nth_error lst i = Some e ->
     Mongo.has_key (originator_id e) (originator_version e) coll = false ->
     P (coll ++ [Mongo.with_id (length coll) e]) lst (S i)
       (ids ++ [Mongo.count coll + 1])) ->
  (forall coll lst i ids e,
     P coll lst i ids -> nth_error lst i = Some e ->
     Mongo.has_key (originator_id e) (originator_version e) coll = true ->
     P coll (lst ++ [bump e]) (S i) (ids ++ [Mongo.count coll])) ->
  forall coll stored_events,
    P coll stored_events O [] ->
    exists r coll' lst',
      insert_events_encoded coll stored_events = Some (r, coll', lst') /\
      ((exists ids, r = Returned ids /\ P coll' lst' (length lst') ids) \/
       (r = Raised OverflowError /\
        exists i ids e,
          P coll' lst' i ids /\ nth_error lst' i = Some e /\
          Mongo.encodable (originator_version e) = false)).
Proof.
  intros Kins Kdup coll evs H0.
  destruct (insert_loop_encoded_total (insert_fuel coll evs)
              (version_bound coll evs) coll evs O [])
    as [[[r coll'] lst'] Hrun].
  { apply within_version_bound. }
  { unfold insert_fuel. simpl. lia. }
  exists r, coll', lst'. split; [exact Hrun|].
  pose (Q := fun c l i ids => (i <= length l)%nat /\ P c l i ids).
  destruct (insert_loop_encoded_invariant Q) with
    (fuel := insert_fuel coll evs) (coll := coll) (lst := evs) (i := O)
    (ids := @nil Z) (r := r) (coll' := coll') (lst' := lst')
    as [i' [ids' [[Hi HP] Hend]]].
  - intros c l i ids e [Hi HP] Hnth Hk. split.
    + apply nth_error_some_lt in Hnth. lia.
    + now apply Kins.
  - intros c l i ids e [Hi HP] Hnth Hk. split.
    + rewrite length_app. simpl. lia.
    + now apply Kdup.
  - split; [lia | assumption].
  - exact Hrun.
  - destruct Hend as [[Hr Hle]|[Hr [e [Hnth Henc]]]].
    + left. exists ids'. split; [assumption|].
      replace (length lst') with i' by lia. assumption.
    + right. split; [assumption|]. now exists i', ids', e.
Qed.

(** With room within 64 bits the encoded call returns. *)
Lemma insert_events_encoded_returns (coll : collection) (batch : list StoredEvent) :
  room coll batch ->
  exists ids coll' lst',
    insert_events_encoded coll batch = Some (Returned ids, coll', lst').
Proof.
  intros [Hwithin Hlow].
  pose (W := fun (c : collection) (l : list StoredEvent) (i : nat) (_ : list Z) =>
    within (2 ^ 63 - 1) c (skipn i l) /\
    Forall (fun e => - 2 ^ 63 <= originator_version e) (skipn i l)).
  destruct (insert_events_encoded_run W) with (coll := coll) (stored_events := batch)
    as [r [c [l [Hrun [[ids [Hr _]]|[_ [i [ids [e [[Hw Hl] [Hnth Henc]]]]]]]]]]].
  - intros c l i ids e [Hw Hl] Hnth Hk.
    rewrite (nth_error_skipn_cons _ _ _ Hnth) in Hw, Hl. split.
    + now apply within_inserted.
    + now inversion Hl.
  - intros c l i ids e [Hw Hl] Hnth Hk.
    pose proof (nth_error_some_lt _ _ _ Hnth) as Hlt.
    rewrite (nth_error_skipn_cons _ _ _ Hnth) in Hw, Hl.
    unfold W. rewrite skipn_snoc by lia. split.
    + now apply within_duplicate.
    + inversion Hl; subst. apply Forall_app. split; [assumption|].
      constructor; [simpl; lia | constructor].
  - split; assumption.
  - subst r. now exists ids, c, l.
  - rewrite (nth_error_skipn_cons _ _ _ Hnth) in Hw, Hl.
    destruct Hw as [_ Hp]. inversion Hp; subst. inversion Hl; subst.
    simpl length in *. unfold Mongo.encodable in Henc.
    apply andb_false_iff in Henc as [Henc|Henc];
      [apply Z.leb_gt in Henc | apply Z.ltb_ge in Henc]; lia.
Qed.

(** When the encoded call returns, it returns what [insert_events]
    returns. *)
Lemma insert_loop_encoded_refines (fuel : nat) :
  forall coll lst i ids ids' coll' lst',
    insert_loop_encoded fuel coll lst i ids = Some (Returned ids', coll', lst') ->
    insert_loop fuel coll lst i ids
    = Some (Returned (mkInserted coll' lst' ids')).
Proof.
  induction fuel as [|fuel IH]; intros coll lst i ids ids' coll' lst' Hrun;
    simpl in Hrun |- *; [discriminate|].
  destruct (nth_error lst i) as [e|]; [|now inversion Hrun].
  unfold Mongo.insert_one_encoded in Hrun.
  destruct (Mongo.encodable (originator_version e)); [|discriminate].
  destruct (Mongo.insert_one coll e) as [c|[| | |]]; try discriminate;
    now apply IH.
Qed.

(** With room within 64 bits the encoder never comes into play: the
    encoded call returns what [insert_events] returns. *)
Lemma insert_events_encoded_agrees (coll : collection) (batch : list StoredEvent) :
  room coll batch ->
  exists out,
    insert_events coll batch = Some (Returned out) /\
    insert_events_encoded coll batch
    = Some (Returned (i_notification_ids out), i_collection out,
            i_stored_events out).
Proof.
  intros Hroom.
  destruct (insert_events_encoded_returns coll batch Hroom)
    as [ids [c [l Hrun]]].
  exists (mkInserted c l ids). split; [|exact Hrun].
  now apply insert_loop_encoded_refines.
Qed.

(** ** Claims on what a conflicting append does *)

(** C1, as the claim states it, fails: with version 0 of stream [A] stored,
    appending another event under that key raises nothing; the call returns
    two ids and the event is stored under version 1. *)
Lemma insert_events_conflict_returns :
  Mongo.has_key stream_A 0 [mkDocument 0 stream_A 0 "Created" []] = true /\
  insert_events_encoded [mkDocument 0 stream_A 0 "Created" []]
                        [event stream_A 0 "Updated"]
  = Some (Returned [1; 2],
          [mkDocument 0 stream_A 0 "Created" [];
           mkDocument 1 stream_A 1 "Updated" []],
          [event stream_A 0 "Updated"; event stream_A 1 "Updated"]).
Proof. split; [reflexivity | vm_compute; reflexivity]. Qed.

(** C1 (amended): for every batch holding an event whose
    [(originator_id, originator_version)] is already stored, [insert_events]
    leaves the stored documents in place and ends in one of two ways: it
    raises [OverflowError], or it returns ids and has stored the conflicting
    event under a later version (its version plus some [k >= 1]).  It
    returns whenever the versions leave room within 64 bits for one bump per
    event of the batch. *)
Theorem insert_events_renumbers_conflict
  (coll : collection) (batch : list StoredEvent) (e : StoredEvent) :
  In e batch ->
  Mongo.has_key (originator_id e) (originator_version e) coll = true ->
  exists r coll' lst' docs,
    insert_events_encoded coll batch = Some (r, coll', lst') /\
    coll' = coll ++ docs /\
    (r = Raised OverflowError \/
     exists ids k d,
       r = Returned ids /\ 0 < k /\ In d docs /\
       to_stored_event d = renumber e k) /\
    (room coll batch -> exists ids, r = Returned ids).
Proof.
  intros Hin Hkey. apply In_nth_error in Hin as [j Hj].
  pose (R := fun (c : collection) (l : list StoredEvent) (i : nat) (_ : list Z) =>
    (exists extra, l = batch ++ extra) /\
    exists added, c = coll ++ added /\
      ((j < i)%nat -> exists k, 0 < k /\
         (In (renumber e k) (skipn i l) \/
          exists d, In d added /\ to_stored_event d = renumber e k))).
  destruct (insert_events_encoded_run R) with (coll := coll) (stored_events := batch)
    as [r [c [l [Hrun Hend]]]].
  - (* the event at index i was inserted *)
    intros c l i ids x [[extra Hl] [added [Hc Hseen]]] Hnth Hk.
    split; [now exists extra|].
    exists (added ++ [Mongo.with_id (length c) x]). split.
    { subst c. now rewrite app_assoc. }
    intros Hji. assert (Hcase : (j < i)%nat \/ j = i) by lia.
    destruct Hcase as [Hlt|Heq].
    + destruct (Hseen Hlt) as [k [Hpos [Hpending|[d [Hd Hev]]]]]; exists k;
        (split; [assumption|]).
      * rewrite (nth_error_skipn_cons _ _ _ Hnth) in Hpending.
        destruct Hpending as [Hx|Hrest]; [|now left].
        right. exists (Mongo.with_id (length c) x). split.
        -- apply in_or_app. right. now left.
        -- now rewrite to_stored_event_with_id.
      * right. exists d. split; [|assumption]. apply in_or_app. now left.
    + subst i l. rewrite (visited_is_original _ _ _ _ _ Hj Hnth) in Hk.
      subst c. rewrite (stored_key_stays _ _ _ Hkey) in Hk. discriminate.
  - (* the event at index i had a duplicate key *)
    intros c l i ids x [[extra Hl] [added [Hc Hseen]]] Hnth Hk.
    split; [exists (extra ++ [bump x]); subst l; now rewrite app_assoc|].
    exists added. split; [assumption|].
    intros Hji. pose proof (nth_error_some_lt _ _ _ Hnth) as Hlen.
    rewrite skipn_snoc by lia.
    assert (Hcase : (j < i)%nat \/ j = i) by lia.
    destruct Hcase as [Hlt|Heq].
    + destruct (Hseen Hlt) as [k [Hpos [Hpending|Hstored]]].
      * rewrite (nth_error_skipn_cons _ _ _ Hnth) in Hpending.
        destruct Hpending as [Hx|Hrest].
        -- exists (k + 1). split; [lia|]. left. apply in_or_app. right.
           left. subst x. apply bump_renumber.
        -- exists k. split; [assumption|]. left. apply in_or_app. now left.
      * exists k. split; [assumption|]. now right.
    + subst i l. rewrite (visited_is_original _ _ _ _ _ Hj Hnth).
      exists 1. split; [lia|]. left. apply in_or_app. right. now left.
  - split; [exists []; now rewrite app_nil_r|].
    exists []. split; [now rewrite app_nil_r|]. intros H; inversion H.
  - assert (Hroom : room coll batch -> exists ids, r = Returned ids).
    { intros Hr.
      destruct (insert_events_encoded_returns coll batch Hr)
        as [ids [c' [l' Hret]]].
      rewrite Hrun in Hret. inversion Hret. now exists ids. }
    destruct Hend
      as [[ids [Hr [[extra Hl] [added [Hadded Hseen]]]]]
         |[Hr [i [ids [x [[_ [added [Hadded _]]] _]]]]]].
    + exists r, c, l, added. repeat split; try assumption.
      right.
      assert (Hj' : (j < length l)%nat).
      { rewrite Hl, length_app. apply nth_error_some_lt in Hj. lia. }
      destruct (Hseen Hj') as [k [Hpos [Hpending|[d [Hd Hev]]]]].
      * rewrite skipn_all in Hpending. destruct Hpending.
      * exists ids, k, d. auto.
    + exists r, c, l, added. repeat split; try assumption. now left.
Qed.

(** Version 1 of stream [A], appended again to the scenario's store. *)
Lemma insert_events_renumbers_conflict_witness :
  exists r coll' lst' docs,
    insert_events_encoded store_A [event stream_A 1 "Updated"]
    = Some (r, coll', lst') /\
    coll' = store_A ++ docs /\
    (r = Raised OverflowError \/
     exists ids k d,
       r = Returned ids /\ 0 < k /\ In d docs /\
       to_stored_event d = renumber (event stream_A 1 "Updated") k) /\
    (room store_A [event stream_A 1 "Updated"] -> exists ids, r = Returned ids).
Proof.
  apply (insert_events_renumbers_conflict store_A
           [event stream_A 1 "Updated"] (event stream_A 1 "Updated")).
  - simpl. left. reflexivity.
  - vm_compute. reflexivity.
Defined.






(** ** The claim on the truncated read *)

Lemma in_boundsb_iff (gt lte : option Z) (v : Z) :
  in_boundsb gt lte v = true <-> in_bounds gt lte v.
Proof.
  unfold in_boundsb, in_bounds.
  destruct (truthy gt), (truthy lte); simpl;
    rewrite ?andb_true_iff, ?Z.ltb_lt, ?Z.leb_le;
    intuition (try discriminate; auto).
Qed.

Lemma find_stream_documents (coll : collection) (u : UUID) (gt lte : option Z) :
  Mongo.find (apply_params (Mongo.mkQuery (Some u) None None) gt lte) coll
  = stream_documents coll u gt lte.
Proof.
  unfold Mongo.find, stream_documents. apply filter_ext. intros d.
  apply Bool.eq_iff_eq_true.
  rewrite select_query_matches, andb_true_iff, N.eqb_eq, in_boundsb_iff.
  tauto.
Qed.

(** C8 (amended): [select_events] always returns.  Without a limit it
    returns the stored events of the stream within the bounds that count,
    each once per document, ascending by version, or descending when [desc]
    is set; with a positive limit [n] it returns the first [n] events of
    that list, so at most [n]; and a stream with no stored event yields the
    empty list. *)
Theorem select_events_sorted_and_truncated
  (coll : collection) (u : UUID) (gt lte : option Z) (desc : bool)
  (limit : option Z) :
  exists l all,
    select_events coll u gt lte desc limit = Returned l /\
    select_events coll u gt lte desc None = Returned all /\
    Permutation all (map to_stored_event (stream_documents coll u gt lte)) /\
    StronglySorted (version_order desc) (map originator_version all) /\
    (forall n, limit = Some n -> 0 < n -> l = firstn (Z.to_nat n) all) /\
    (truthy limit = false -> l = all) /\
    StronglySorted (version_order desc) (map originator_version l) /\
    Forall (fun e => originator_id e = u /\
                     exists d, In d coll /\ to_stored_event d = e) l /\
    (forall n, limit = Some n -> 0 < n -> Z.of_nat (length l) <= n) /\
    (truthy gt = false -> truthy lte = false -> truthy limit = false ->
     forall d, In d coll -> d_originator_id d = u -> In (to_stored_event d) l) /\
    ((forall d, In d coll -> d_originator_id d <> u) -> l = []).
Proof.
  eexists. eexists. split; [reflexivity|]. split; [reflexivity|].
  simpl.
  set (q := apply_params (Mongo.mkQuery (Some u) None None) gt lte).
  set (cursor := Mongo.sort desc (Mongo.find q coll)).
  assert (Hcut : forall n, limit = Some n -> 0 < n ->
            (if truthy limit then Mongo.limit (unwrap limit) cursor else cursor)
            = firstn (Z.to_nat n) cursor).
  { intros n Hlimit Hn. subst limit. unfold truthy, Mongo.limit. simpl.
    replace (n =? 0) with false by lia. simpl.
    now replace (Z.abs_nat n) with (Z.to_nat n) by lia. }
  repeat split.
  - apply Permutation_map. unfold cursor, q.
    rewrite <- find_stream_documents. apply sort_perm.
  - apply versions_sorted, sort_sorted.
  - intros n Hlimit Hn. rewrite (Hcut n Hlimit Hn). symmetry. apply firstn_map.
  - intros Hlimit. now rewrite Hlimit.
  - apply versions_sorted.
    destruct (truthy limit); [apply limit_sorted|]; apply sort_sorted.
  - eapply Forall_impl;
      [|apply (select_events_within_bounds coll u gt lte desc limit);
        reflexivity].
    simpl. intros e [Hu [_ Hd]]. auto.
  - intros n Hlimit Hn. rewrite (Hcut n Hlimit Hn), length_map.
    pose proof (firstn_le_length (Z.to_nat n) cursor). lia.
  - intros Hgt Hlte Hlimit d Hin Hu. rewrite Hlimit.
    apply in_map, read_cursor_in. split; [assumption|]. split; [assumption|].
    unfold in_bounds. rewrite Hgt, Hlte. split; discriminate.
  - intros Hnone.
    assert (Hfind : Mongo.find q coll = []).
    { unfold Mongo.find. apply filter_none. intros d Hd.
      destruct (Mongo.matches q d) eqn:Hm; [|reflexivity].
      apply select_query_matches in Hm as [Hu _].
      now destruct (Hnone d Hd). }
    unfold cursor. rewrite Hfind. simpl. destruct (truthy limit); [|reflexivity].
    unfold Mongo.limit. destruct (unwrap limit =? 0); [reflexivity|].
    now rewrite firstn_nil.
Qed.
